(** * Train/dev/test split and candidate extraction of the transistor image tutorial

    A shallow embedding of [hardware_image/transistor_image_tutorial.ipynb].
    The notebook's own code is the split-assignment loop of cell 15 and the
    accept-all matcher of cell 18; candidate extraction (cell 22) is a call
    into the Fonduer library. *)

From Stdlib Require Import QArith Qround Qabs.
From stdpp Require Import base decidable countable list sorting sets gmap strings.

Open Scope nat_scope.

(** ** Data model *)

(** A [Figure] row: position index inside its document and storage URL. *)
Record Figure := mkFigure {
  position : nat;
  url : string;
}.

(** A [Document] row.  [doc_id] is the primary key: two rows returned by one
    query are distinct objects exactly when they are distinct records. *)
Record Document := mkDocument {
  doc_id : nat;
  name : string;
  figures : list Figure;
}.

Global Instance Figure_eq_dec : EqDecision Figure.
Proof. solve_decision. Defined.

Global Instance Document_eq_dec : EqDecision Document.
Proof. solve_decision. Defined.

Global Instance Figure_countable : Countable Figure.
Proof.
  refine (inj_countable' (λ f, (position f, url f))
                         (λ p, mkFigure p.1 p.2) _).
  by intros [].
Defined.

Global Instance Document_countable : Countable Document.
Proof.
  refine (inj_countable' (λ d, (doc_id d, name d, figures d))
                         (λ p, mkDocument p.1.1 p.1.2 p.2) _).
  by intros [].
Defined.

(** ** Cell 15: the split assignment *)

(** [splits = (0.5, 0.75)].  Both thresholds are dyadic, so the floating
    point products [splits[k] * ld] are exact for every list length below
    2^51, and Python compares an [int] with a [float] by value: the
    comparisons of the loop are comparisons of rationals. *)
Definition splits : Q * Q := (1 # 2, 3 # 4)%Q.

Definition Qltb (x y : Q) : bool := negb (Qle_bool y x).

Definition Qnat (n : nat) : Q := inject_Z (Z.of_nat n).

(** [data.sort(key=lambda x: x[0])]: a stable sort on the name component.
    Strings are compared byte-wise, which on UTF-8 text is the code point
    order Python uses.  A stable sort is determined by its input, so stable
    insertion computes the list that Python's sort does. *)
Fixpoint insert_by_key (x : string * Document) (l : list (string * Document))
  : list (string * Document) :=
  match l with
  | [] => [x]
  | y :: l' =>
      if String.leb x.1 y.1 then x :: y :: l' else y :: insert_by_key x l'
  end.

Fixpoint sort_by_key (l : list (string * Document)) : list (string * Document) :=
  match l with
  | [] => []
  | x :: l' => insert_by_key x (sort_by_key l')
  end.

(** [data = [(doc.name, doc) for doc in docs]; data.sort(...)]. *)
Definition data (docs : list Document) : list (string * Document) :=
  sort_by_key ((λ doc, (name doc, doc)) <$> docs).

(** The three Python sets the loop fills. *)
Record SplitSets := mkSplitSets {
  train_docs : gset Document;
  dev_docs : gset Document;
  test_docs : gset Document;
}.

Definition no_splits : SplitSets := mkSplitSets ∅ ∅ ∅.

(** One iteration of [for i, (doc_name, doc) in enumerate(data)]. *)
Definition assign_doc (ld : nat) (st : SplitSets)
    (it : nat * (string * Document)) : SplitSets :=
  let '(i, (_, doc)) := it in
  if Qltb (Qnat i) (splits.1 * Qnat ld) then
    mkSplitSets ({[doc]} ∪ train_docs st) (dev_docs st) (test_docs st)
  else if Qltb (Qnat i) (splits.2 * Qnat ld) then
    mkSplitSets (train_docs st) ({[doc]} ∪ dev_docs st) (test_docs st)
  else
    mkSplitSets (train_docs st) (dev_docs st) ({[doc]} ∪ test_docs st).

Definition enumerate {A} (l : list A) : list (nat * A) := imap pair l.

(** The whole cell, from the rows returned by the query. *)
Definition split_docs (docs : list Document) : SplitSets :=
  let ld := length docs in
  foldl (assign_doc ld) no_splits (enumerate (data docs)).

(** ** Cell 18: the figure matcher *)

Definition do_nothing_matcher (fig : Figure) : bool := true.

(** ** Cell 22: candidate extraction

    [CandidateExtractor], [OmniFigures] and [LambdaFunctionFigureMatcher]
    are Fonduer classes; the notebook only instantiates and calls them.
    Their behaviour is taken from the specification of the pipeline. *)

(** Modelled from the spec: a candidate row, which Fonduer's
    [candidate_subclass] creates.  It is a tuple of referenced entities (here
    figures) extracted from one document and tagged with one split
    (train = 0, dev = 1, test = 2). *)
Record Candidate := mkCandidate {
  cand_doc : Document;
  split : nat;
  args : list Figure;
}.

Global Instance Candidate_eq_dec : EqDecision Candidate.
Proof. solve_decision. Defined.

(** Modelled from the spec: Fonduer's candidate space capability (of which
    [OmniFigures] is an instance), a finite sequence of raw mentions scoped
    to one document. *)
Definition CandidateSpace : Type := Document → list Figure.

(** Modelled from the spec: Fonduer's matcher capability, a pure predicate
    over a raw mention returning accept or reject. *)
Definition Matcher : Type := Figure → bool.

(** Modelled from the spec: Fonduer's throttler, a predicate over an already
    matched candidate tuple. *)
Definition Throttler : Type := list Figure → bool.

(** Modelled from the spec: Fonduer's [LambdaFunctionFigureMatcher], the
    matcher that accepts a figure exactly when the wrapped function does. *)
Definition LambdaFunctionFigureMatcher (func : Figure → bool) : Matcher := func.

(** [fig_matcher = LambdaFunctionFigureMatcher(func=do_nothing_matcher)]. *)
Definition fig_matcher : Matcher := LambdaFunctionFigureMatcher do_nothing_matcher.

(** Modelled from the spec: the configuration of Fonduer's
    [CandidateExtractor], one candidate space and one matcher per argument
    position and an optional throttler. *)
Record CandidateExtractor := mkCandidateExtractor {
  cspaces : list CandidateSpace;
  matchers : list Matcher;
  throttler : option Throttler;
}.

(** [candidate_extractor = CandidateExtractor(Part_Fig, [figs], [fig_matcher])],
    for the candidate space [figs = OmniFigures(type='png')] of cell 20. *)
Definition candidate_extractor (figs : CandidateSpace) : CandidateExtractor :=
  mkCandidateExtractor [figs] [fig_matcher] None.

(** Modelled from the spec: the enumeration step of Fonduer's extractor, the
    cartesian product of the per-argument candidate spaces. *)
Fixpoint cartesian (spaces : list (list Figure)) : list (list Figure) :=
  match spaces with
  | [] => [[]]
  | s :: rest => x ← s; (λ t, x :: t) <$> cartesian rest
  end.

(** Modelled from the spec: the matcher test of Fonduer's extractor; a tuple
    passes when every argument is accepted by the matcher of its position. *)
Fixpoint all_match (ms : list Matcher) (t : list Figure) : bool :=
  match ms, t with
  | [], [] => true
  | m :: ms', x :: t' => m x && all_match ms' t'
  | _, _ => false
  end.

(** Modelled from the spec: the optional throttler test of Fonduer's
    extractor. *)
Definition throttle (th : option Throttler) (t : list Figure) : bool :=
  match th with
  | None => true
  | Some f => f t
  end.

(** Modelled from the spec: state [enumerating(document)] of Fonduer's
    extractor. *)
Definition enumerating (ext : CandidateExtractor) (doc : Document)
  : list (list Figure) :=
  cartesian ((λ cs : CandidateSpace, cs doc) <$> cspaces ext).

(** Modelled from the spec: state [filtering] of Fonduer's extractor; reject
    any tuple failing any matcher, then any surviving tuple failing the
    throttler. *)
Definition filtering (ext : CandidateExtractor) (tuples : list (list Figure))
  : list (list Figure) :=
  filter (λ t, throttle (throttler ext) t = true)
    (filter (λ t, all_match (matchers ext) t = true) tuples).

(** Modelled from the spec: the write of one candidate row by Fonduer's
    extractor, with upsert semantics: a row already stored is not stored
    again. *)
Definition upsert (c : Candidate) (store : list Candidate) : list Candidate :=
  if decide (c ∈ store) then store else store ++ [c].

(** Modelled from the spec: state [persisting] of Fonduer's extractor; the
    surviving tuples are stored tagged with the requested split label. *)
Definition persisting (k : nat) (doc : Document) (tuples : list (list Figure))
    (store : list Candidate) : list Candidate :=
  foldl (λ st t, upsert (mkCandidate doc k t) st) store tuples.

(** Modelled from the spec: one round idle, enumerating, filtering,
    persisting, idle of Fonduer's extractor, for one document. *)
Definition extract_document (ext : CandidateExtractor) (k : nat)
    (store : list Candidate) (doc : Document) : list Candidate :=
  persisting k doc (filtering ext (enumerating ext doc)) store.

(** Modelled from the spec: Fonduer's [CandidateExtractor.apply(docs, split=k)],
    the round above iterated over the documents of the input set. *)
Definition CandidateExtractor_apply (ext : CandidateExtractor)
    (docs : gset Document) (k : nat) (store : list Candidate) : list Candidate :=
  foldl (extract_document ext k) store (elements docs).

(** ** Auxiliary notions used in the statements *)

(** Ascending order of the sort key. *)
Definition key_le (x y : string * Document) : Prop := String.le x.1 y.1.

(** The smallest integer not below [f * n]. *)
Definition ceil_frac (f : Q) (n : nat) : nat := Z.to_nat (Qceiling (f * Qnat n)).

(** The documents in sorted order, and the part of a list between two
    indices. *)
Definition sorted_docs (docs : list Document) : list Document := (data docs).*2.

Definition segment {A} (a b : nat) (l : list A) : list A := drop a (take b l).

(** The candidate rows one round writes for a document. *)
Definition candidates_of (ext : CandidateExtractor) (k : nat) (doc : Document)
  : list Candidate :=
  mkCandidate doc k <$> filtering ext (enumerating ext doc).

Definition upsert_all (rows store : list Candidate) : list Candidate :=
  foldl (λ st c, upsert c st) store rows.

Definition names (X : gset Document) : gset string := set_map name X.

(** ** Sample inputs *)

(** A small corpus: four parsed documents, in the order a query returned
    them. *)
Definition doc_a : Document := mkDocument 3 "a" [].
Definition doc_b : Document := mkDocument 2 "b" [].
Definition doc_c : Document := mkDocument 4 "c" [].
Definition doc_d : Document := mkDocument 1 "d" [].
Definition corpus : list Document := [doc_d; doc_b; doc_a; doc_c].

(** A document with two figures, and an extractor that keeps one of them. *)
Definition fig_1 : Figure := mkFigure 51 "lmp2014mt/Image_052.jpg".
Definition fig_2 : Figure := mkFigure 52 "lmp2014mt/Image_053.png".
Definition doc_two_figs : Document := mkDocument 5 "lmp2014mt" [fig_1; fig_2].

Definition selective_extractor : CandidateExtractor :=
  mkCandidateExtractor [figures] [λ f, bool_decide (position f = 52)]
    (Some (λ t, bool_decide (length t = 1))).

(** ** Cell 15, last line

    [pprint([x.name for x in train_docs])].  The names come in the iteration
    order of the set, which Python leaves open; [elements] is one such
    order. *)
Definition printed_train_names (docs : list Document) : list string :=
  name <$> elements (train_docs (split_docs docs)).

(** ** Cells 3 and 9: constants *)

(** [PARALLEL = 4]. *)
Definition PARALLEL : nat := 4.

(** [docs_path = 'data/html/']. *)
Definition docs_path : string := "data/html/".

(** ** Cells 22 to 27: the calls on the candidate table

    The candidate table of the session is passed explicitly.  The method
    [candidate_extractor.apply] is Fonduer's and is a parameter of the cells:
    [extractor_apply docs k p table] is the table after
    [candidate_extractor.apply(docs, split=k, parallelism=p)], with [p = None]
    when the call leaves the parallelism out. *)
Section cells.
Variable extractor_apply :
  gset Document → nat → option nat → list Candidate → list Candidate.

(** Cell 22: [candidate_extractor.apply(train_docs, split=0,
    parallelism=PARALLEL)]. *)
Definition cell22 (s : SplitSets) (table : list Candidate) : list Candidate :=
  extractor_apply (train_docs s) 0 (Some PARALLEL) table.

(** [session.query(Part_Fig).filter(Part_Fig.split == k)], of cells 24 and
    26. *)
Definition with_split (k : nat) (table : list Candidate) : list Candidate :=
  filter (λ c, split c = k) table.

(** Cell 24: [train_cands = ... .filter(Part_Fig.split == 0).all()]. *)
Definition train_cands (table : list Candidate) : list Candidate :=
  with_split 0 table.

(** Cell 26: [for i, docs in enumerate([dev_docs, test_docs])], each round
    extracting with [split=i+1] and printing the count of that split.  The
    result is the table and the numbers printed. *)
Definition cell26_round (st : list Candidate * list nat)
    (it : nat * gset Document) : list Candidate * list nat :=
  let '(i, docs) := it in
  let table := extractor_apply docs (i + 1) None st.1 in
  (table, st.2 ++ [length (with_split (i + 1) table)]).

Definition cell26 (s : SplitSets) (table : list Candidate)
  : list Candidate * list nat :=
  foldl cell26_round (table, []) (enumerate [dev_docs s; test_docs s]).

(** The candidate table after cells 15, 22 and 26, from the rows the query
    of cell 15 returned and the table the session started with. *)
Definition extracted_table (docs : list Document) (table : list Candidate)
  : list Candidate :=
  (cell26 (split_docs docs) (cell22 (split_docs docs) table)).1.

End cells.

(** Cell 27: [n = 9] and the path
    [docs_path + '/' + train_cands[n][0].url] of the image shown.  [None]
    stands for the [IndexError] of an index out of range. *)
Module cell27.

Definition n : nat := 9.

Definition image_path (cands : list Candidate) : option string :=
  c ← cands !! n;
  fig ← args c !! 0;
  Some (docs_path +:+ "/" +:+ url fig).

End cell27.

(** The extractor of cell 22 as modelled above, as the parameter of the
    cells; it does not depend on the parallelism. *)
Definition modelled_apply (figs : CandidateSpace) (docs : gset Document)
    (k : nat) (p : option nat) (table : list Candidate) : list Candidate :=
  CandidateExtractor_apply (candidate_extractor figs) docs k table.

(** The sample corpus as a query ordered by name returns it. *)
Definition ordered_corpus : list Document := [doc_a; doc_b; doc_c; doc_d].

(** A corpus of two documents, one of them with figures, and a candidate
    of that document labelled dev. *)
Definition figure_corpus : list Document := [doc_two_figs; doc_a].
Definition dev_candidate : Candidate := mkCandidate doc_two_figs 1 [fig_1].
Definition dev_candidate_2 : Candidate := mkCandidate doc_two_figs 1 [fig_2].

(** The train candidate cell 27 printed in the recorded run. *)
Definition train_candidate : Candidate := mkCandidate doc_two_figs 0 [fig_1].

(** * Properties of the split assignment *)

(** ** The two threshold tests, on integers *)

Lemma Qltb_lt (x y : Q) : Qltb x y = true ↔ (x < y)%Q.
Proof.
  unfold Qltb. rewrite negb_true_iff, <- not_true_iff_false, Qle_bool_iff.
  split; [apply Qnot_le_lt | apply Qlt_not_le].
Qed.

Lemma below_first_threshold (i ld : nat) :
  Qltb (Qnat i) (splits.1 * Qnat ld) = true ↔ 2 * i < ld.
Proof.
  rewrite Qltb_lt. unfold Qlt, Qnat, splits; simpl. lia.
Qed.

Lemma below_second_threshold (i ld : nat) :
  Qltb (Qnat i) (splits.2 * Qnat ld) = true ↔ 4 * i < 3 * ld.
Proof.
  rewrite Qltb_lt. unfold Qlt, Qnat, splits; simpl. lia.
Qed.

(** ** The stable sort *)

Lemma insert_by_key_perm x l : insert_by_key x l ≡ₚ x :: l.
Proof.
  induction l as [|y l IH]; simpl; [done|].
  destruct (String.leb x.1 y.1); [done|].
  rewrite IH. apply Permutation_swap.
Qed.

Lemma sort_by_key_perm l : sort_by_key l ≡ₚ l.
Proof.
  induction l as [|x l IH]; simpl; [done|].
  by rewrite insert_by_key_perm, IH.
Qed.

Lemma insert_by_key_sorted x l :
  Sorted key_le l → Sorted key_le (insert_by_key x l).
Proof.
  induction 1 as [|y l Hl IH Hy]; simpl.
  - repeat constructor.
  - destruct (String.leb x.1 y.1) eqn:Hxy.
    + constructor; [by constructor|]. constructor.
      unfold key_le, String.le. by rewrite Hxy.
    + assert (key_le y x) as Hyx.
      { unfold key_le, String.le.
        destruct (String.leb_total x.1 y.1) as [H|H]; [congruence|by rewrite H]. }
      constructor; [done|].
      destruct Hy as [|z l Hyz]; simpl; [by constructor|].
      destruct (String.leb x.1 z.1); by constructor.
Qed.

Lemma sort_by_key_sorted l : Sorted key_le (sort_by_key l).
Proof.
  induction l; simpl; [constructor | by apply insert_by_key_sorted].
Qed.

Lemma data_perm docs : data docs ≡ₚ (λ doc, (name doc, doc)) <$> docs.
Proof. apply sort_by_key_perm. Qed.

Lemma data_docs_perm docs : (data docs).*2 ≡ₚ docs.
Proof.
  rewrite data_perm, <- list_fmap_compose.
  by rewrite <- (list_fmap_id docs) at 2.
Qed.

Lemma data_length docs : length (data docs) = length docs.
Proof. by rewrite (Permutation_length (data_perm docs)), length_fmap. Qed.

Lemma data_key docs nm d : (nm, d) ∈ data docs → nm = name d ∧ d ∈ docs.
Proof.
  rewrite data_perm, list_elem_of_fmap. intros (d' & [= -> ->] & Hd). done.
Qed.

(** ** The loop, as a fold over the enumerated list *)

Lemma enumerate_snoc {A} (l : list A) x :
  enumerate (l ++ [x]) = enumerate l ++ [(length l, x)].
Proof. unfold enumerate. rewrite imap_app. simpl. by rewrite Nat.add_0_r. Qed.

Lemma lookup_snoc_exists (l : list (string * Document)) nm' d' d (P : nat → Prop) :
  (∃ i nm, (l ++ [(nm', d')]) !! i = Some (nm, d) ∧ P i) ↔
  (∃ i nm, l !! i = Some (nm, d) ∧ P i) ∨ (d = d' ∧ P (length l)).
Proof.
  split.
  - intros (i & nm & Hi & HP).
    apply lookup_snoc_Some in Hi as [[_ Hi]|[-> [= -> ->]]]; [left|right]; eauto.
  - intros [(i & nm & Hi & HP)|[-> HP]].
    + exists i, nm. split; [|done]. by apply lookup_app_l_Some.
    + exists (length l), nm'. split; [|done]. by apply list_lookup_middle.
Qed.

(** What one iteration adds. *)
Lemma assign_doc_spec ld st i nm doc d :
  let st' := assign_doc ld st (i, (nm, doc)) in
  (d ∈ train_docs st' ↔ d ∈ train_docs st ∨ d = doc ∧ 2 * i < ld) ∧
  (d ∈ dev_docs st' ↔
     d ∈ dev_docs st ∨ d = doc ∧ ld ≤ 2 * i ∧ 4 * i < 3 * ld) ∧
  (d ∈ test_docs st' ↔ d ∈ test_docs st ∨ d = doc ∧ 3 * ld ≤ 4 * i).
Proof.
  unfold assign_doc.
  destruct (Qltb (Qnat i) (splits.1 * Qnat ld)) eqn:H1;
    [|destruct (Qltb (Qnat i) (splits.2 * Qnat ld)) eqn:H2];
    cbn [train_docs dev_docs test_docs];
    rewrite ?elem_of_union, ?elem_of_singleton;
    rewrite <- ?not_true_iff_false in *;
    rewrite ?below_first_threshold, ?below_second_threshold in *;
    intuition lia.
Qed.

(** Which indices end up in which set, for any list the loop runs over. *)
Lemma assign_fold_spec ld (l : list (string * Document)) d :
  let st := foldl (assign_doc ld) no_splits (enumerate l) in
  (d ∈ train_docs st ↔ ∃ i nm, l !! i = Some (nm, d) ∧ 2 * i < ld) ∧
  (d ∈ dev_docs st ↔
     ∃ i nm, l !! i = Some (nm, d) ∧ ld ≤ 2 * i ∧ 4 * i < 3 * ld) ∧
  (d ∈ test_docs st ↔ ∃ i nm, l !! i = Some (nm, d) ∧ 3 * ld ≤ 4 * i).
Proof.
  induction l as [|[nm' d'] l IH] using rev_ind; cbn zeta.
  - repeat split; try (intros []%elem_of_empty);
      intros (i & nm & Hi & _); by destruct i.
  - rewrite enumerate_snoc, foldl_app. cbn [foldl].
    cbn zeta in IH. destruct IH as (IHtr & IHdev & IHte).
    rewrite !lookup_snoc_exists, <- IHtr, <- IHdev, <- IHte.
    apply assign_doc_spec.
Qed.

(** ** The splits as segments of the sorted list *)

Lemma Qceiling_frac (p : Z) (q : positive) (n : nat) :
  Qceiling ((p # q) * Qnat n) = (- ((- (p * Z.of_nat n)) `div` Z.pos q))%Z.
Proof.
  unfold Qceiling, Qfloor, Qnat, Qmult, Qopp, inject_Z; cbn [Qnum Qden].
  by rewrite Pos.mul_1_r.
Qed.

Lemma lt_ceil_half (i n : nat) : i < ceil_frac (1 # 2) n ↔ 2 * i < n.
Proof.
  unfold ceil_frac. rewrite Qceiling_frac.
  pose proof (Z.div_mod (- (1 * Z.of_nat n)) 2 ltac:(lia)) as Hd.
  pose proof (Z.mod_pos_bound (- (1 * Z.of_nat n)) 2 ltac:(lia)) as Hm.
  lia.
Qed.

Lemma lt_ceil_three_quarters (i n : nat) :
  i < ceil_frac (3 # 4) n ↔ 4 * i < 3 * n.
Proof.
  unfold ceil_frac. rewrite Qceiling_frac.
  pose proof (Z.div_mod (- (3 * Z.of_nat n)) 4 ltac:(lia)) as Hd.
  pose proof (Z.mod_pos_bound (- (3 * Z.of_nat n)) 4 ltac:(lia)) as Hm.
  lia.
Qed.

Lemma ceil_half_le_three_quarters n : ceil_frac (1 # 2) n ≤ ceil_frac (3 # 4) n.
Proof.
  destruct (decide (ceil_frac (1 # 2) n ≤ ceil_frac (3 # 4) n)) as [|Hn]; [done|].
  apply Nat.nle_gt in Hn. apply lt_ceil_half in Hn as H2.
  pose proof (lt_ceil_three_quarters (ceil_frac (3 # 4) n) n) as H3. lia.
Qed.

Lemma ceil_three_quarters_le n : ceil_frac (3 # 4) n ≤ n.
Proof.
  destruct (decide (ceil_frac (3 # 4) n ≤ n)) as [|Hn]; [done|].
  apply Nat.nle_gt in Hn. apply lt_ceil_three_quarters in Hn. lia.
Qed.

(** The order of the two cut points, as hypotheses. *)
Ltac ceil_bounds n :=
  pose proof (ceil_half_le_three_quarters n);
  pose proof (ceil_three_quarters_le n).

Section segments.
Context {A : Type}.

Lemma elem_of_segment (l : list A) a b x :
  x ∈ segment a b l ↔ ∃ i, l !! i = Some x ∧ a ≤ i < b.
Proof.
  unfold segment. rewrite list_elem_of_lookup. split.
  - intros [j Hj]. rewrite lookup_drop, lookup_take_Some in Hj.
    exists (a + j). split; [tauto|lia].
  - intros (i & Hi & Hab). exists (i - a).
    rewrite lookup_drop, lookup_take_Some.
    replace (a + (i - a)) with i by lia. split; [done|lia].
Qed.

Lemma length_segment (l : list A) a b :
  a ≤ b ≤ length l → length (segment a b l) = b - a.
Proof. intros ?. unfold segment. rewrite length_drop, length_take. lia. Qed.

Lemma NoDup_segment (l : list A) a b : NoDup l → NoDup (segment a b l).
Proof.
  intros Hl. unfold segment.
  eapply sublist_NoDup; [|apply sublist_drop].
  eapply sublist_NoDup; [done|apply sublist_take].
Qed.

Lemma segment_disjoint (l : list A) a b c d x :
  NoDup l → b ≤ c → x ∈ segment a b l → x ∉ segment c d l.
Proof.
  intros Hl Hbc. rewrite !elem_of_segment.
  intros (i & Hi & ?) (j & Hj & ?).
  pose proof (NoDup_lookup _ _ _ _ Hl Hi Hj). lia.
Qed.

End segments.

Lemma sorted_docs_lookup docs i d :
  sorted_docs docs !! i = Some d ↔ ∃ nm, data docs !! i = Some (nm, d).
Proof.
  unfold sorted_docs. rewrite list_lookup_fmap_Some. split.
  - intros ([nm d'] & -> & Hi). by exists nm.
  - intros [nm Hi]. by exists (nm, d).
Qed.

Lemma sorted_docs_perm docs : sorted_docs docs ≡ₚ docs.
Proof. apply data_docs_perm. Qed.

Lemma sorted_docs_length docs : length (sorted_docs docs) = length docs.
Proof. by rewrite (Permutation_length (sorted_docs_perm docs)). Qed.

Lemma split_docs_segments docs :
  let ds := sorted_docs docs in
  let a := ceil_frac (1 # 2) (length docs) in
  let b := ceil_frac (3 # 4) (length docs) in
  train_docs (split_docs docs) = list_to_set (segment 0 a ds) ∧
  dev_docs (split_docs docs) = list_to_set (segment a b ds) ∧
  test_docs (split_docs docs) = list_to_set (segment b (length docs) ds).
Proof.
  intros ds a b. subst ds a b.
  repeat split; apply set_eq; intros d;
    rewrite elem_of_list_to_set, elem_of_segment;
    setoid_rewrite sorted_docs_lookup;
    ceil_bounds (length docs);
    destruct (assign_fold_spec (length docs) (data docs) d) as (Htr & Hdev & Hte);
    unfold split_docs; cbn zeta; rewrite ?Htr, ?Hdev, ?Hte; clear Htr Hdev Hte;
    split; intros (i & Hi); exists i.
  all: try (destruct Hi as (nm & Hi & Hlt); split; [by exists nm|]).
  all: try (destruct Hi as ([nm Hi] & Hlt); exists nm; split; [done|]).
  all: try (apply lookup_lt_Some in Hi as Hlen; rewrite data_length in Hlen).
  all: pose proof (lt_ceil_half i (length docs));
    pose proof (lt_ceil_three_quarters i (length docs)); lia.
Qed.

Lemma split_docs_sizes docs :
  NoDup docs →
  size (train_docs (split_docs docs)) = ceil_frac (1 # 2) (length docs) ∧
  size (dev_docs (split_docs docs)) =
    ceil_frac (3 # 4) (length docs) - ceil_frac (1 # 2) (length docs) ∧
  size (test_docs (split_docs docs)) =
    length docs - ceil_frac (3 # 4) (length docs).
Proof.
  intros Hnd.
  assert (NoDup (sorted_docs docs)) as Hs by by rewrite sorted_docs_perm.
  ceil_bounds (length docs).
  destruct (split_docs_segments docs) as (-> & -> & ->).
  rewrite !size_list_to_set by by apply NoDup_segment.
  rewrite !length_segment by (rewrite sorted_docs_length; lia). lia.
Qed.

Lemma split_docs_disjoint docs :
  NoDup docs →
  train_docs (split_docs docs) ## dev_docs (split_docs docs) ∧
  train_docs (split_docs docs) ## test_docs (split_docs docs) ∧
  dev_docs (split_docs docs) ## test_docs (split_docs docs).
Proof.
  intros Hnd.
  assert (NoDup (sorted_docs docs)) as Hs by by rewrite sorted_docs_perm.
  pose proof (ceil_half_le_three_quarters (length docs)).
  destruct (split_docs_segments docs) as (-> & -> & ->).
  split; [|split]; intros d; rewrite !elem_of_list_to_set;
    intros Hd1 Hd2; revert Hd2;
    (eapply segment_disjoint; [done| |exact Hd1]); lia.
Qed.

Lemma split_docs_union docs :
  train_docs (split_docs docs) ∪ dev_docs (split_docs docs)
    ∪ test_docs (split_docs docs) = list_to_set docs.
Proof.
  ceil_bounds (length docs).
  destruct (split_docs_segments docs) as (-> & -> & ->).
  apply set_eq; intros d.
  rewrite !elem_of_union, !elem_of_list_to_set, !elem_of_segment.
  rewrite <- (sorted_docs_perm docs), list_elem_of_lookup. split.
  - intros [[(i & Hi & _)|(i & Hi & _)]|(i & Hi & _)]; by exists i.
  - intros [i Hi]. apply lookup_lt_Some in Hi as Hlen.
    rewrite sorted_docs_length in Hlen.
    destruct (decide (i < ceil_frac (1 # 2) (length docs)));
      [left; left; exists i; split; [done|lia]|].
    destruct (decide (i < ceil_frac (3 # 4) (length docs)));
      [left; right|right]; exists i; (split; [done|lia]).
Qed.


(** ** The threshold comparisons as written in the loop *)

Lemma Qnat_lt_half (i n : nat) : (Qnat i < (1 # 2) * Qnat n)%Q ↔ 2 * i < n.
Proof. rewrite <- Qltb_lt. apply below_first_threshold. Qed.

Lemma Qnat_lt_three_quarters (i n : nat) :
  (Qnat i < (3 # 4) * Qnat n)%Q ↔ 4 * i < 3 * n.
Proof. rewrite <- Qltb_lt. apply below_second_threshold. Qed.

Lemma Qnat_ge_half (i n : nat) : ((1 # 2) * Qnat n <= Qnat i)%Q ↔ n ≤ 2 * i.
Proof.
  rewrite <- Nat.nlt_ge, <- Qnat_lt_half.
  split; [apply Qle_not_lt | apply Qnot_lt_le].
Qed.

Lemma sorted_names docs : StronglySorted String.le (data docs).*1.
Proof.
  apply Sorted_StronglySorted; [apply _|].
  pose proof (sort_by_key_sorted ((λ doc, (name doc, doc)) <$> docs)) as Hs.
  fold (data docs) in Hs.
  induction Hs as [|x l _ IH Hx]; simpl; constructor; [done|].
  destruct Hx; simpl; by constructor.
Qed.

Lemma data_names_perm docs : (data docs).*1 ≡ₚ name <$> docs.
Proof. by rewrite data_perm, <- list_fmap_compose. Qed.

(** * The claims about the split assigner *)

(** The index of a member of each split, in the sorted list. *)
Lemma split_docs_index docs d :
  (d ∈ train_docs (split_docs docs) ↔
     ∃ i, data docs !! i = Some (name d, d) ∧ 2 * i < length docs) ∧
  (d ∈ dev_docs (split_docs docs) ↔
     ∃ i, data docs !! i = Some (name d, d) ∧
          length docs ≤ 2 * i ∧ 4 * i < 3 * length docs) ∧
  (d ∈ test_docs (split_docs docs) ↔
     ∃ i, data docs !! i = Some (name d, d) ∧ 3 * length docs ≤ 4 * i).
Proof.
  destruct (assign_fold_spec (length docs) (data docs) d) as (Htr & Hdev & Hte).
  unfold split_docs; cbn zeta. rewrite Htr, Hdev, Hte.
  repeat split.
  all: try (intros (i & nm & Hi & ?); exists i; split; [|done];
            by destruct (data_key docs nm d (list_elem_of_lookup_2 _ _ _ Hi))
              as [-> _]).
  all: intros (i & Hi & ?); by exists i, (name d).
Qed.

(** For distinct document rows a document sits at one index of the sorted
    list, and that index decides its split. *)
Lemma data_NoDup docs : NoDup docs → NoDup (data docs).
Proof.
  intros Hnd. rewrite data_perm.
  apply NoDup_fmap_2; [|done]. by intros d1 d2 [= _ ->].
Qed.

Lemma split_docs_at_index docs i nm d :
  NoDup docs →
  data docs !! i = Some (nm, d) →
  (d ∈ train_docs (split_docs docs) ↔ 2 * i < length docs) ∧
  (d ∈ dev_docs (split_docs docs) ↔
     length docs ≤ 2 * i ∧ 4 * i < 3 * length docs) ∧
  (d ∈ test_docs (split_docs docs) ↔ 3 * length docs ≤ 4 * i).
Proof.
  intros Hnd Hi.
  destruct (data_key docs nm d (list_elem_of_lookup_2 _ _ _ Hi)) as [-> _].
  pose proof (data_NoDup docs Hnd) as Hdata.
  destruct (split_docs_index docs d) as (-> & -> & ->).
  split; [|split];
    (split;
     [intros (j & Hj & ?); by rewrite (NoDup_lookup _ _ _ _ Hdata Hi Hj)
     |intros ?; by exists i]).
Qed.

(** C1: the document names are sorted ascending, and with [L] documents the
    document at 0-based sorted index [i] is put in train if [i < 0.5 L], in
    dev if [0.5 L <= i < 0.75 L], and in test otherwise.  Nothing else gets
    into a split: a member of a split sits at an index of that range, and
    for distinct document rows the index of a document decides which one
    split holds it. *)
Theorem split_assigner_by_sorted_index docs i nm d :
  data docs !! i = Some (nm, d) →
  let L := Qnat (length docs) in
  let s := split_docs docs in
  StronglySorted String.le (data docs).*1 ∧
  (data docs).*1 ≡ₚ name <$> docs ∧
  nm = name d ∧
  ((Qnat i < (1 # 2) * L)%Q → d ∈ train_docs s) ∧
  (((1 # 2) * L <= Qnat i)%Q ∧ (Qnat i < (3 # 4) * L)%Q → d ∈ dev_docs s) ∧
  (¬ (Qnat i < (1 # 2) * L)%Q →
   ¬ (((1 # 2) * L <= Qnat i)%Q ∧ (Qnat i < (3 # 4) * L)%Q) →
     d ∈ test_docs s) ∧
  (∀ d', d' ∈ train_docs s ↔
     ∃ j, data docs !! j = Some (name d', d') ∧ (Qnat j < (1 # 2) * L)%Q) ∧
  (∀ d', d' ∈ dev_docs s ↔
     ∃ j, data docs !! j = Some (name d', d') ∧
          ((1 # 2) * L <= Qnat j)%Q ∧ (Qnat j < (3 # 4) * L)%Q) ∧
  (∀ d', d' ∈ test_docs s ↔
     ∃ j, data docs !! j = Some (name d', d') ∧
          ¬ (Qnat j < (1 # 2) * L)%Q ∧
          ¬ (((1 # 2) * L <= Qnat j)%Q ∧ (Qnat j < (3 # 4) * L)%Q)) ∧
  (NoDup docs →
     (d ∈ train_docs s ↔ (Qnat i < (1 # 2) * L)%Q) ∧
     (d ∈ dev_docs s ↔
        ((1 # 2) * L <= Qnat i)%Q ∧ (Qnat i < (3 # 4) * L)%Q) ∧
     (d ∈ test_docs s ↔
        ¬ (Qnat i < (1 # 2) * L)%Q ∧
        ¬ (((1 # 2) * L <= Qnat i)%Q ∧ (Qnat i < (3 # 4) * L)%Q))).
Proof.
  intros Hi L s. subst L s.
  split; [apply sorted_names|]. split; [apply data_names_perm|].
  destruct (data_key docs nm d (list_elem_of_lookup_2 _ _ _ Hi)) as [Hnm _].
  split; [exact Hnm|]. subst nm.
  rewrite !Qnat_lt_half, !Qnat_ge_half, !Qnat_lt_three_quarters.
  destruct (split_docs_index docs d) as (Htr & Hdev & Hte).
  split; [intros ?; apply Htr; by exists i|].
  split; [intros ?; apply Hdev; by exists i|].
  split; [intros ? ?; apply Hte; exists i; split; [done|lia]|].
  split; [|split; [|split]].
  - intros d'. destruct (split_docs_index docs d') as (-> & _ & _).
    split; intros (j & Hj & ?); exists j; (split; [done|]);
      by apply Qnat_lt_half.
  - intros d'. destruct (split_docs_index docs d') as (_ & -> & _).
    split; intros (j & Hj & ?); exists j; (split; [done|]);
      by rewrite ?Qnat_ge_half, ?Qnat_lt_three_quarters in *.
  - intros d'. destruct (split_docs_index docs d') as (_ & _ & ->).
    split; intros (j & Hj & ?); exists j; (split; [done|]);
      rewrite ?Qnat_lt_half, ?Qnat_ge_half, ?Qnat_lt_three_quarters in *; lia.
  - intros Hnd.
    destruct (split_docs_at_index docs i (name d) d Hnd Hi) as (-> & -> & ->).
    repeat split; lia.
Qed.

Lemma split_assigner_by_sorted_index_witness :
  data corpus !! 2 = Some ("c", doc_c) ∧
  doc_c ∈ dev_docs (split_docs corpus) ∧
  (NoDup corpus → doc_c ∉ train_docs (split_docs corpus)).
Proof.
  assert (data corpus !! 2 = Some ("c", doc_c)) as Hi by reflexivity.
  pose proof (split_assigner_by_sorted_index corpus 2 "c" doc_c Hi)
    as (_ & _ & _ & _ & Hdev & _ & _ & _ & _ & Hone).
  split; [exact Hi|]. split.
  - apply Hdev. split; [|reflexivity]. by intros [=].
  - intros Hnd Htr. apply (proj1 (Hone Hnd)) in Htr. by inversion Htr.
Defined.

(** C2: on a set of documents the three splits are a partition of it, and
    the sizes of train and dev are within one of [0.5 L] and of
    [(0.75 - 0.5) L]. *)
Theorem split_assigner_partition docs :
  NoDup docs →
  let s := split_docs docs in
  let L := Qnat (length docs) in
  train_docs s ∪ dev_docs s ∪ test_docs s = list_to_set docs ∧
  train_docs s ## dev_docs s ∧
  train_docs s ## test_docs s ∧
  dev_docs s ## test_docs s ∧
  (Qabs (Qnat (size (train_docs s)) - (1 # 2) * L) < 1)%Q ∧
  (Qabs (Qnat (size (dev_docs s)) - ((3 # 4) - (1 # 2)) * L) < 1)%Q.
Proof.
  intros Hnd s L. subst s L.
  split; [apply split_docs_union|].
  destruct (split_docs_disjoint docs Hnd) as (? & ? & ?).
  do 3 (split; [done|]).
  destruct (split_docs_sizes docs Hnd) as (-> & -> & _).
  pose proof (lt_ceil_half (ceil_frac (1 # 2) (length docs)) (length docs)).
  pose proof (lt_ceil_half (ceil_frac (1 # 2) (length docs) - 1) (length docs)).
  pose proof (lt_ceil_three_quarters
                (ceil_frac (3 # 4) (length docs)) (length docs)).
  pose proof (lt_ceil_three_quarters
                (ceil_frac (3 # 4) (length docs) - 1) (length docs)).
  pose proof (ceil_half_le_three_quarters (length docs)).
  split; apply Qabs_Qlt_condition; unfold Qlt, Qle, Qnat; simpl; lia.
Qed.

Lemma split_assigner_partition_witness :
  NoDup corpus ∧
  train_docs (split_docs corpus) ## dev_docs (split_docs corpus).
Proof.
  assert (NoDup corpus) as Hnd by compute_done.
  split; [exact Hnd|].
  exact (proj1 (proj2 (split_assigner_partition corpus Hnd))).
Defined.

(** C9: the strict comparisons fix the sizes: train has ceil(L/2) documents,
    dev has ceil(3L/4) - ceil(L/2), test has L - ceil(3L/4); no documents, no
    members. *)
Theorem split_assigner_sizes docs :
  NoDup docs →
  let s := split_docs docs in
  let L := length docs in
  size (train_docs s) = ceil_frac (1 # 2) L ∧
  size (dev_docs s) = ceil_frac (3 # 4) L - ceil_frac (1 # 2) L ∧
  size (test_docs s) = L - ceil_frac (3 # 4) L ∧
  (L = 0 → train_docs s = ∅ ∧ dev_docs s = ∅ ∧ test_docs s = ∅).
Proof.
  intros Hnd s L. subst s L.
  destruct (split_docs_sizes docs Hnd) as (Htr & Hdev & Hte).
  do 3 (split; [done|]).
  intros HL. apply length_zero_iff_nil in HL as ->. done.
Qed.

Lemma split_assigner_sizes_witness :
  NoDup corpus ∧ size (train_docs (split_docs corpus)) = 2.
Proof.
  assert (NoDup corpus) as Hnd by compute_done.
  split; [exact Hnd|].
  exact (proj1 (split_assigner_sizes corpus Hnd)).
Defined.

(** ** The splits by name *)

Lemma sorted_docs_names docs : name <$> sorted_docs docs = (data docs).*1.
Proof.
  unfold sorted_docs. rewrite <- list_fmap_compose.
  apply Forall_fmap_ext, Forall_forall. intros [nm d] Hd.
  by destruct (data_key docs nm d Hd) as [-> _].
Qed.

Lemma names_segment docs a b :
  names (list_to_set (segment a b (sorted_docs docs))) =
  list_to_set (segment a b (data docs).*1).
Proof.
  unfold names, segment.
  by rewrite <- list_to_set_fmap_L, fmap_drop, fmap_take, sorted_docs_names.
Qed.

Lemma names_split_docs docs :
  let ns := (data docs).*1 in
  let a := ceil_frac (1 # 2) (length ns) in
  let b := ceil_frac (3 # 4) (length ns) in
  names (train_docs (split_docs docs)) = list_to_set (segment 0 a ns) ∧
  names (dev_docs (split_docs docs)) = list_to_set (segment a b ns) ∧
  names (test_docs (split_docs docs)) = list_to_set (segment b (length ns) ns).
Proof.
  intros ns a b. subst ns a b. rewrite length_fmap, data_length.
  destruct (split_docs_segments docs) as (-> & -> & ->).
  by rewrite !names_segment.
Qed.

Lemma key_le_strongly_sorted docs : StronglySorted key_le (data docs).
Proof.
  apply Sorted_StronglySorted; [|apply sort_by_key_sorted].
  intros x y z. unfold key_le. apply transitivity.
Qed.

(** The rows of one document set with unique names are sorted to the same
    list whatever order the query returned them in. *)
Lemma data_order_independent docs1 docs2 :
  docs1 ≡ₚ docs2 → NoDup (name <$> docs1) → data docs1 = data docs2.
Proof.
  intros Hp Hnd.
  apply (StronglySorted_unique_strong key_le);
    [|apply key_le_strongly_sorted..|by rewrite !data_perm, Hp].
  intros [n1 d1] [n2 d2] H1 H2 Hle1 Hle2.
  apply data_key in H1 as [-> H1]. apply data_key in H2 as [-> H2].
  rewrite <- Hp in H2.
  assert (name d1 = name d2) as Hn by (by apply (anti_symm String.le)).
  apply list_elem_of_lookup in H1 as [i Hi], H2 as [j Hj].
  assert (i = j) as ->; [|by simplify_eq].
  eapply NoDup_lookup; [exact Hnd|..]; rewrite list_lookup_fmap.
  - by rewrite Hi.
  - by rewrite Hj, Hn.
Qed.

(** X5: for documents with unique names the split does not depend on the
    order in which the query returned the rows. *)
Lemma split_docs_order_independent docs1 docs2 :
  docs1 ≡ₚ docs2 → NoDup (name <$> docs1) → split_docs docs1 = split_docs docs2.
Proof.
  intros Hp Hnd. unfold split_docs.
  by rewrite (data_order_independent docs1 docs2 Hp Hnd),
    (Permutation_length Hp).
Qed.

(** C4: the split is a function of the sorted sequence of document names
    (the thresholds are constants of the notebook): two runs that see the
    same sorted names put the same names in train, in dev and in test. *)
Theorem split_assignment_deterministic docs1 docs2 :
  (data docs1).*1 = (data docs2).*1 →
  names (train_docs (split_docs docs1)) = names (train_docs (split_docs docs2)) ∧
  names (dev_docs (split_docs docs1)) = names (dev_docs (split_docs docs2)) ∧
  names (test_docs (split_docs docs1)) = names (test_docs (split_docs docs2)).
Proof.
  intros Hn.
  destruct (names_split_docs docs1) as (-> & -> & ->).
  destruct (names_split_docs docs2) as (-> & -> & ->).
  by rewrite Hn.
Qed.

Lemma split_assignment_deterministic_witness :
  (data corpus).*1 = (data (reverse corpus)).*1 ∧
  names (train_docs (split_docs corpus)) =
    names (train_docs (split_docs (reverse corpus))).
Proof.
  split; [reflexivity|].
  apply (split_assignment_deterministic corpus (reverse corpus)). reflexivity.
Defined.

(** C5: the thresholds are the fixed cumulative fractions (0.5, 0.75).  The
    mapping is computed over the ascending sequence of the names, each
    document getting one split, and it cuts that sequence after the first
    ceil(0.5 L) and the first ceil(0.75 L) names: train, dev and test hold
    50%, 25% and 25% of the documents, each within one document, and
    exactly so when the count is a multiple of four. *)
Theorem split_fractions docs :
  NoDup docs →
  let s := split_docs docs in
  let L := length docs in
  let ns := (data docs).*1 in
  splits = ((1 # 2)%Q, (3 # 4)%Q) ∧
  StronglySorted String.le ns ∧
  ns ≡ₚ name <$> docs ∧
  names (train_docs s) = list_to_set (segment 0 (ceil_frac (1 # 2) L) ns) ∧
  names (dev_docs s) =
    list_to_set (segment (ceil_frac (1 # 2) L) (ceil_frac (3 # 4) L) ns) ∧
  names (test_docs s) = list_to_set (segment (ceil_frac (3 # 4) L) L ns) ∧
  (∀ d, d ∈ docs →
     (d ∈ train_docs s ∧ (d ∉ dev_docs s) ∧ (d ∉ test_docs s)) ∨
     ((d ∉ train_docs s) ∧ d ∈ dev_docs s ∧ (d ∉ test_docs s)) ∨
     ((d ∉ train_docs s) ∧ (d ∉ dev_docs s) ∧ d ∈ test_docs s)) ∧
  size (train_docs s) = ceil_frac (1 # 2) L ∧
  size (train_docs s) + size (dev_docs s) = ceil_frac (3 # 4) L ∧
  size (train_docs s) + size (dev_docs s) + size (test_docs s) = L ∧
  (Qabs (Qnat (size (train_docs s)) - (1 # 2) * Qnat L) < 1)%Q ∧
  (Qabs (Qnat (size (dev_docs s)) - (1 # 4) * Qnat L) < 1)%Q ∧
  (Qabs (Qnat (size (test_docs s)) - (1 # 4) * Qnat L) < 1)%Q ∧
  (∀ k, L = 4 * k →
     (Qnat (size (train_docs s)) == (1 # 2) * Qnat L)%Q ∧
     (Qnat (size (dev_docs s)) == (1 # 4) * Qnat L)%Q ∧
     (Qnat (size (test_docs s)) == (1 # 4) * Qnat L)%Q).
Proof.
  intros Hnd s L ns. subst s L ns.
  split; [reflexivity|].
  split; [apply sorted_names|]. split; [apply data_names_perm|].
  destruct (names_split_docs docs) as (Hntr & Hndev & Hnte).
  rewrite length_fmap, data_length in Hntr, Hndev, Hnte.
  do 3 (split; [done|]).
  split.
  { intros d Hd.
    destruct (split_docs_disjoint docs Hnd) as (Htd & Htt & Hdt).
    specialize (Htd d). specialize (Htt d). specialize (Hdt d).
    assert (d ∈ train_docs (split_docs docs) ∪ dev_docs (split_docs docs)
                ∪ test_docs (split_docs docs)) as Hin.
    { rewrite split_docs_union. by apply elem_of_list_to_set. }
    apply elem_of_union in Hin as [[?|?]%elem_of_union|?]; tauto. }
  destruct (split_docs_sizes docs Hnd) as (-> & -> & ->).
  ceil_bounds (length docs).
  split; [done|]. split; [lia|]. split; [lia|].
  pose proof (lt_ceil_half (ceil_frac (1 # 2) (length docs)) (length docs)).
  pose proof (lt_ceil_half (ceil_frac (1 # 2) (length docs) - 1)
                (length docs)).
  pose proof (lt_ceil_three_quarters
                (ceil_frac (3 # 4) (length docs)) (length docs)).
  pose proof (lt_ceil_three_quarters
                (ceil_frac (3 # 4) (length docs) - 1) (length docs)).
  do 3 (split; [apply Qabs_Qlt_condition; unfold Qlt, Qle, Qnat; simpl; lia|]).
  intros k Hk.
  pose proof (lt_ceil_half (2 * k) (length docs)).
  pose proof (lt_ceil_three_quarters (3 * k) (length docs)).
  assert (ceil_frac (1 # 2) (length docs) = 2 * k) as -> by lia.
  assert (ceil_frac (3 # 4) (length docs) = 3 * k) as -> by lia.
  rewrite Hk. repeat split; unfold Qeq, Qnat; simpl; lia.
Qed.

Lemma split_fractions_witness :
  NoDup corpus ∧
  names (dev_docs (split_docs corpus)) = {["c"]} ∧
  (Qnat (size (dev_docs (split_docs corpus))) == (1 # 4) * Qnat 4)%Q.
Proof.
  assert (NoDup corpus) as Hnd by compute_done.
  pose proof (split_fractions corpus Hnd)
    as (_ & _ & _ & _ & Hdev & _ & _ & _ & _ & _ & _ & _ & _ & Hexact).
  split; [exact Hnd|]. split; [exact Hdev|].
  exact (proj1 (proj2 (Hexact 1 eq_refl))).
Defined.

(** C3: for documents named a, b, c and d the split is train = {a, b},
    dev = {c}, test = {d}, in whatever order the documents arrive. *)
Theorem split_scenario_abcd docs :
  name <$> docs ≡ₚ ["a"; "b"; "c"; "d"] →
  names (train_docs (split_docs docs)) = {["a"; "b"]} ∧
  names (dev_docs (split_docs docs)) = {["c"]} ∧
  names (test_docs (split_docs docs)) = {["d"]}.
Proof.
  intros Hp.
  assert ((data docs).*1 = ["a"; "b"; "c"; "d"]) as Hn.
  { apply (StronglySorted_unique String.le); [apply sorted_names| |].
    - repeat constructor.
    - by rewrite data_names_perm. }
  destruct (names_split_docs docs) as (-> & -> & ->).
  rewrite Hn. by vm_compute.
Qed.

Lemma split_scenario_abcd_witness :
  name <$> corpus ≡ₚ ["a"; "b"; "c"; "d"] ∧
  names (train_docs (split_docs corpus)) = {["a"; "b"]}.
Proof.
  assert (name <$> corpus ≡ₚ ["a"; "b"; "c"; "d"]) as Hp by compute_done.
  split; [exact Hp|].
  exact (proj1 (split_scenario_abcd corpus Hp)).
Defined.

(** * Candidate extraction *)

(** ** Upserts *)

Lemma elem_of_upsert c x store : x ∈ upsert c store ↔ x ∈ store ∨ x = c.
Proof.
  unfold upsert. destruct (decide (c ∈ store)) as [Hc|Hc].
  - split; [by left|]. by intros [?| ->].
  - by rewrite elem_of_app, list_elem_of_singleton.
Qed.

Lemma upsert_present c store : c ∈ store → upsert c store = store.
Proof. intros Hc. unfold upsert. by rewrite decide_True. Qed.

Lemma NoDup_upsert c store : NoDup store → NoDup (upsert c store).
Proof.
  intros Hnd. unfold upsert. destruct (decide (c ∈ store)) as [Hc|Hc]; [done|].
  apply NoDup_app. split; [done|]. split; [|apply NoDup_singleton].
  intros x Hx ->%list_elem_of_singleton. done.
Qed.

Lemma elem_of_upsert_all rows store x :
  x ∈ upsert_all rows store ↔ x ∈ store ∨ x ∈ rows.
Proof.
  unfold upsert_all. revert store.
  induction rows as [|c rows IH]; intros store; simpl.
  - rewrite elem_of_nil. tauto.
  - rewrite IH, elem_of_upsert, elem_of_cons. tauto.
Qed.

Lemma upsert_all_present rows store :
  (∀ c, c ∈ rows → c ∈ store) → upsert_all rows store = store.
Proof.
  unfold upsert_all. induction rows as [|c rows IH]; intros Hin; simpl; [done|].
  rewrite upsert_present by (apply Hin; left).
  apply IH. intros c' Hc'. apply Hin. by right.
Qed.

Lemma NoDup_upsert_all rows store : NoDup store → NoDup (upsert_all rows store).
Proof.
  unfold upsert_all. revert store.
  induction rows as [|c rows IH]; intros store Hnd; simpl; [done|].
  by apply IH, NoDup_upsert.
Qed.

Lemma upsert_all_app rows1 rows2 store :
  upsert_all (rows1 ++ rows2) store = upsert_all rows2 (upsert_all rows1 store).
Proof. unfold upsert_all. apply foldl_app. Qed.

(** ** One round, and a batch, as a sequence of upserts *)

Section rounds.
Context (ext : CandidateExtractor) (k : nat).

Lemma extract_document_upserts store doc :
  extract_document ext k store doc = upsert_all (candidates_of ext k doc) store.
Proof.
  unfold extract_document, persisting, candidates_of, upsert_all.
  generalize (filtering ext (enumerating ext doc)). intros tuples. revert store.
  induction tuples as [|t tuples IH]; intros store; simpl; [done|]. apply IH.
Qed.

Lemma apply_upserts docs store :
  CandidateExtractor_apply ext docs k store =
  upsert_all (elements docs ≫= candidates_of ext k) store.
Proof.
  unfold CandidateExtractor_apply. generalize (elements docs). intros l.
  revert store. induction l as [|doc l IH]; intros store; simpl; [done|].
  by rewrite IH, upsert_all_app, extract_document_upserts.
Qed.

Lemma elem_of_candidates_of doc c :
  c ∈ candidates_of ext k doc ↔
  cand_doc c = doc ∧ split c = k ∧
  args c ∈ enumerating ext doc ∧
  all_match (matchers ext) (args c) = true ∧
  throttle (throttler ext) (args c) = true.
Proof.
  unfold candidates_of, filtering.
  rewrite list_elem_of_fmap. setoid_rewrite list_elem_of_filter.
  setoid_rewrite list_elem_of_filter. split.
  - intros (t & -> & ? & ? & ?). done.
  - intros (<- & <- & ? & ? & ?). exists (args c). by destruct c.
Qed.

End rounds.

Lemma all_match_Forall2 ms t :
  all_match ms t = true ↔ Forall2 (λ (m : Matcher) x, m x = true) ms t.
Proof.
  revert t. induction ms as [|m ms IH]; intros [|x t]; simpl.
  - split; [constructor|done].
  - split; [done|inversion 1].
  - split; [done|inversion 1].
  - rewrite andb_true_iff, IH. split.
    + intros [? ?]. by constructor.
    + inversion 1; by subst.
Qed.

Lemma upsert_all_fresh rows store :
  NoDup rows → (∀ c, c ∈ rows → c ∉ store) →
  upsert_all rows store = store ++ rows.
Proof.
  unfold upsert_all. revert store.
  induction rows as [|c rows IH]; intros store Hnd Hfresh; simpl.
  - by rewrite app_nil_r.
  - apply NoDup_cons in Hnd as [Hc Hnd].
    unfold upsert at 2. rewrite decide_False by (apply Hfresh; left).
    rewrite IH, <- app_assoc; [done..|].
    intros c' Hc'. rewrite elem_of_app, list_elem_of_singleton.
    intros [?| ->]; [|done]. eapply Hfresh; [by right|done].
Qed.

(** What a batch stores for one document depends on that document alone. *)
Lemma filter_upsert (P : Candidate → Prop) `{!∀ c, Decision (P c)} c store :
  filter P (upsert c store) =
  if decide (P c) then upsert c (filter P store) else filter P store.
Proof.
  unfold upsert. destruct (decide (c ∈ store)) as [Hc|Hc].
  - destruct (decide (P c)) as [HP|HP]; [|done].
    by rewrite decide_True by (by apply list_elem_of_filter).
  - rewrite filter_app. destruct (decide (P c)) as [HP|HP].
    + rewrite decide_False by (rewrite list_elem_of_filter; tauto).
      by rewrite filter_cons_True, filter_nil.
    + by rewrite filter_cons_False, filter_nil, app_nil_r.
Qed.

Lemma filter_upsert_all (P : Candidate → Prop) `{!∀ c, Decision (P c)}
    rows store :
  filter P (upsert_all rows store) = upsert_all (filter P rows) (filter P store).
Proof.
  unfold upsert_all. revert store.
  induction rows as [|c rows IH]; intros store; simpl; [done|].
  rewrite IH, filter_upsert, filter_cons.
  by destruct (decide (P c)).
Qed.

Lemma filter_candidates_of ext k doc doc' :
  filter (λ c, cand_doc c = doc) (candidates_of ext k doc') =
  if decide (doc' = doc) then candidates_of ext k doc' else [].
Proof.
  unfold candidates_of. generalize (filtering ext (enumerating ext doc')).
  intros tuples. destruct (decide (doc' = doc)) as [->|Hne].
  - induction tuples as [|t tuples IH]; [done|].
    rewrite fmap_cons, filter_cons_True by done. by f_equal.
  - induction tuples as [|t tuples IH]; [done|].
    by rewrite fmap_cons, filter_cons_False.
Qed.

Lemma filter_batch_rows ext k doc (l : list Document) :
  NoDup l → doc ∈ l →
  filter (λ c, cand_doc c = doc) (l ≫= candidates_of ext k) =
  candidates_of ext k doc.
Proof.
  assert (∀ l' : list Document, doc ∉ l' →
            filter (λ c, cand_doc c = doc) (l' ≫= candidates_of ext k) = [])
    as Hout.
  { induction l' as [|d l' IH]; intros Hd; [done|].
    apply not_elem_of_cons in Hd as [Hne Hd].
    by rewrite bind_cons, filter_app, filter_candidates_of, decide_False, IH. }
  induction 1 as [|d l Hd Hnd IH]; intros Hin; [by apply elem_of_nil in Hin|].
  rewrite bind_cons, filter_app, filter_candidates_of.
  destruct (decide (d = doc)) as [->|Hne].
  - by rewrite Hout, app_nil_r.
  - apply elem_of_cons in Hin as [->|Hin]; [done|]. by rewrite IH.
Qed.

Lemma accept_all_candidates_of figs k doc :
  candidates_of (candidate_extractor figs) k doc
  = (λ f, mkCandidate doc k [f]) <$> figs doc.
Proof.
  unfold candidates_of, filtering, enumerating. simpl.
  induction (figs doc) as [|f l IH]; simpl; [done|]. by f_equal.
Qed.

(** With the accept-all matcher and no throttler, a first run on one
    document stores as many candidates as its candidate space enumerates
    figures. *)
Lemma accept_all_candidate_count figs doc k :
  NoDup (figs doc) →
  length (CandidateExtractor_apply (candidate_extractor figs) {[doc]} k [])
  = length (figs doc).
Proof.
  intros Hnd. rewrite apply_upserts, elements_singleton. simpl.
  rewrite app_nil_r, accept_all_candidates_of.
  rewrite upsert_all_fresh;
    [by rewrite app_nil_l, length_fmap| |intros c _; apply not_elem_of_nil].
  apply NoDup_fmap_2; [|done]. by intros f1 f2 [=].
Qed.

(** * The claims about the candidate extractor *)

(** C6: extraction is idempotent for a document and a split: a second run
    leaves the stored candidates as the first run left them, so the count
    does not change, and it introduces no duplicate row. *)
Theorem extraction_idempotent ext docs doc k store :
  let once := CandidateExtractor_apply ext docs k store in
  let twice := CandidateExtractor_apply ext docs k once in
  extract_document ext k (extract_document ext k store doc) doc =
    extract_document ext k store doc ∧
  twice = once ∧
  length twice = length once ∧
  (NoDup store → NoDup twice).
Proof.
  intros once twice. subst once twice.
  assert (∀ rows s, upsert_all rows (upsert_all rows s) = upsert_all rows s)
    as Hidem.
  { intros rows s. apply upsert_all_present.
    intros c Hc. apply elem_of_upsert_all. by right. }
  split; [by rewrite !extract_document_upserts|].
  rewrite !apply_upserts, Hidem.
  do 2 (split; [done|]). apply NoDup_upsert_all.
Qed.

(** C7: a candidate the extractor stores was enumerated for a document of
    the input set, carries the requested split, and is accepted by the
    matcher of every argument position and by the throttler when there is
    one. *)
Theorem extractor_stores_only_accepted ext docs k store c :
  c ∈ CandidateExtractor_apply ext docs k store →
  c ∉ store →
  cand_doc c ∈ docs ∧
  split c = k ∧
  args c ∈ enumerating ext (cand_doc c) ∧
  Forall2 (λ (m : Matcher) x, m x = true) (matchers ext) (args c) ∧
  (∀ th, throttler ext = Some th → th (args c) = true).
Proof.
  rewrite apply_upserts, elem_of_upsert_all. intros [?|Hc] Hn; [done|].
  apply list_elem_of_bind in Hc as (doc & Hc & Hdoc).
  apply elem_of_elements in Hdoc.
  apply elem_of_candidates_of in Hc as (<- & ? & ? & Hm & Ht).
  repeat split; try done.
  - by apply all_match_Forall2.
  - intros th Hth. by rewrite Hth in Ht.
Qed.

Lemma extractor_stores_only_accepted_witness :
  mkCandidate doc_two_figs 0 [fig_2]
    ∈ CandidateExtractor_apply selective_extractor {[doc_two_figs]} 0 [] ∧
  (mkCandidate doc_two_figs 0 [fig_2] ∉ []) ∧
  Forall2 (λ (m : Matcher) x, m x = true)
    (matchers selective_extractor) [fig_2].
Proof.
  assert (mkCandidate doc_two_figs 0 [fig_2]
            ∈ CandidateExtractor_apply selective_extractor {[doc_two_figs]} 0 [])
    as Hin by compute_done.
  assert (mkCandidate doc_two_figs 0 [fig_2] ∉ []) as Hout
    by apply not_elem_of_nil.
  split; [exact Hin|]. split; [exact Hout|].
  exact (proj1 (proj2 (proj2 (proj2
    (extractor_stores_only_accepted selective_extractor {[doc_two_figs]} 0 []
       (mkCandidate doc_two_figs 0 [fig_2]) Hin Hout))))).
Defined.

(** C10: [do_nothing_matcher] returns True on every figure, so with it as
    the only matcher and no throttler every figure the candidate space
    enumerates for a document of the input set is stored as a candidate of
    that document. *)
Theorem accept_all_stores_every_figure figs docs k store doc fig :
  doc ∈ docs →
  fig ∈ figs doc →
  (∀ f, do_nothing_matcher f = true) ∧
  throttler (candidate_extractor figs) = None ∧
  mkCandidate doc k [fig]
    ∈ CandidateExtractor_apply (candidate_extractor figs) docs k store.
Proof.
  intros Hdoc Hfig. do 2 (split; [done|]).
  rewrite apply_upserts, elem_of_upsert_all. right.
  apply list_elem_of_bind. exists doc. split; [|by apply elem_of_elements].
  apply elem_of_candidates_of. simpl. repeat split.
  unfold enumerating; simpl.
  apply list_elem_of_bind. exists fig. split; [|done]. apply list_elem_of_here.
Qed.

Lemma accept_all_stores_every_figure_witness :
  doc_two_figs ∈ ({[doc_two_figs]} : gset Document) ∧
  fig_1 ∈ figures doc_two_figs ∧
  mkCandidate doc_two_figs 0 [fig_1]
    ∈ CandidateExtractor_apply (candidate_extractor figures)
        {[doc_two_figs]} 0 [].
Proof.
  assert (doc_two_figs ∈ ({[doc_two_figs]} : gset Document)) as Hdoc
    by (by apply elem_of_singleton).
  assert (fig_1 ∈ figures doc_two_figs) as Hfig by apply list_elem_of_here.
  split; [exact Hdoc|]. split; [exact Hfig|].
  exact (proj2 (proj2 (accept_all_stores_every_figure figures
    {[doc_two_figs]} 0 [] doc_two_figs fig_1 Hdoc Hfig))).
Defined.

(** C8: a document with exactly two figures, extracted with the accept-all
    matcher and no throttler over a candidate space that enumerates its
    figures, has exactly two candidates stored for it. *)
Theorem two_figures_two_candidates figs docs k store doc :
  doc ∈ docs →
  length (figures doc) = 2 →
  NoDup (figures doc) →
  figs doc ≡ₚ figures doc →
  (∀ c, c ∈ store → cand_doc c ≠ doc) →
  length (filter (λ c, cand_doc c = doc)
            (CandidateExtractor_apply (candidate_extractor figs) docs k store))
  = 2.
Proof.
  intros Hdoc Hlen Hnd Hfigs Hstore.
  rewrite apply_upserts, filter_upsert_all.
  rewrite filter_batch_rows
    by (by apply NoDup_elements || by apply elem_of_elements).
  assert (filter (λ c, cand_doc c = doc) store = []) as ->.
  { induction store as [|c store IH]; [done|].
    rewrite filter_cons_False by (apply Hstore; left).
    apply IH. intros c' Hc'. apply Hstore. by right. }
  rewrite accept_all_candidates_of, upsert_all_fresh.
  - by rewrite app_nil_l, length_fmap, Hfigs.
  - apply NoDup_fmap_2; [by intros f1 f2 [=]|]. by rewrite Hfigs.
  - intros c _. apply not_elem_of_nil.
Qed.

Lemma two_figures_two_candidates_witness :
  doc_two_figs ∈ ({[doc_two_figs; doc_a]} : gset Document) ∧
  length (figures doc_two_figs) = 2 ∧
  NoDup (figures doc_two_figs) ∧
  figures doc_two_figs ≡ₚ figures doc_two_figs ∧
  (∀ c, c ∈ @nil Candidate → cand_doc c ≠ doc_two_figs) ∧
  length (filter (λ c, cand_doc c = doc_two_figs)
            (CandidateExtractor_apply (candidate_extractor figures)
               {[doc_two_figs; doc_a]} 0 [])) = 2.
Proof.
  assert (NoDup (figures doc_two_figs)) as Hnd by compute_done.
  assert (∀ c, c ∈ @nil Candidate → cand_doc c ≠ doc_two_figs) as Hstore
    by (intros c Hc; apply elem_of_nil in Hc; destruct Hc).
  assert (doc_two_figs ∈ ({[doc_two_figs; doc_a]} : gset Document)) as Hdoc
    by (apply elem_of_union; left; apply elem_of_singleton; reflexivity).
  split; [exact Hdoc|]. split; [reflexivity|]. split; [exact Hnd|].
  split; [apply Permutation_refl|]. split; [exact Hstore|].
  exact (two_figures_two_candidates figures {[doc_two_figs; doc_a]} 0 []
           doc_two_figs Hdoc eq_refl Hnd (Permutation_refl _) Hstore).
Defined.

(** * Further properties of the split assignment *)

Lemma StronglySorted_lookup_lt {A} (R : relation A) (l : list A) i j x y :
  StronglySorted R l → l !! i = Some x → l !! j = Some y → i < j → R x y.
Proof.
  intros Hs. revert i j. induction Hs as [|z l Hs IH Hz]; intros i j Hi Hj Hij.
  - by rewrite lookup_nil in Hi.
  - destruct j as [|j]; [lia|]. destruct i as [|i]; simplify_eq/=.
    + rewrite Forall_forall in Hz. eapply Hz, list_elem_of_lookup_2, Hj.
    + eapply IH; [done..|lia].
Qed.

(** X1: the splits follow the order of the names: a document of train has a
    name not above that of any document of dev or test, and a document of
    dev one not above that of any document of test. *)
Theorem split_ordered_by_name docs d1 d2 :
  (d1 ∈ train_docs (split_docs docs) ∧ d2 ∈ dev_docs (split_docs docs)) ∨
  (d1 ∈ train_docs (split_docs docs) ∧ d2 ∈ test_docs (split_docs docs)) ∨
  (d1 ∈ dev_docs (split_docs docs) ∧ d2 ∈ test_docs (split_docs docs)) →
  String.le (name d1) (name d2).
Proof.
  destruct (split_docs_index docs d1) as (Htr1 & Hdev1 & _).
  destruct (split_docs_index docs d2) as (_ & Hdev2 & Hte2).
  rewrite Htr1, Hdev1, Hdev2, Hte2.
  intros [[(i & Hi & ?) (j & Hj & ?)]
         |[[(i & Hi & ?) (j & Hj & ?)]|[(i & Hi & ?) (j & Hj & ?)]]];
    apply (StronglySorted_lookup_lt key_le (data docs) i j
             (name d1, d1) (name d2, d2) (key_le_strongly_sorted docs) Hi Hj);
    lia.
Qed.

Lemma split_ordered_by_name_witness :
  ((doc_b ∈ train_docs (split_docs corpus) ∧
    doc_c ∈ dev_docs (split_docs corpus)) ∨
   (doc_b ∈ train_docs (split_docs corpus) ∧
    doc_c ∈ test_docs (split_docs corpus)) ∨
   (doc_b ∈ dev_docs (split_docs corpus) ∧
    doc_c ∈ test_docs (split_docs corpus))) ∧
  String.le (name doc_b) (name doc_c).
Proof.
  assert (doc_b ∈ train_docs (split_docs corpus)) as Hb by compute_done.
  assert ((doc_b ∈ train_docs (split_docs corpus) ∧
           doc_c ∈ dev_docs (split_docs corpus)) ∨
          (doc_b ∈ train_docs (split_docs corpus) ∧
           doc_c ∈ test_docs (split_docs corpus)) ∨
          (doc_b ∈ dev_docs (split_docs corpus) ∧
           doc_c ∈ test_docs (split_docs corpus))) as H.
  { left. split; [exact Hb|]. clear Hb. compute_done. }
  split; [exact H|].
  exact (split_ordered_by_name corpus doc_b doc_c H).
Defined.

(** ** How many documents each split gets *)

Lemma ceil_half_bounds n :
  n ≤ 2 * ceil_frac (1 # 2) n ≤ n + 1.
Proof.
  pose proof (lt_ceil_half (ceil_frac (1 # 2) n) n).
  pose proof (lt_ceil_half (ceil_frac (1 # 2) n - 1) n).
  pose proof (lt_ceil_half 0 n). lia.
Qed.

Lemma ceil_three_quarters_bounds n :
  3 * n ≤ 4 * ceil_frac (3 # 4) n ≤ 3 * n + 3.
Proof.
  pose proof (lt_ceil_three_quarters (ceil_frac (3 # 4) n) n).
  pose proof (lt_ceil_three_quarters (ceil_frac (3 # 4) n - 1) n).
  pose proof (lt_ceil_three_quarters 0 n). lia.
Qed.

Lemma segment_set_non_empty (l : list Document) a b :
  a ≤ b ≤ length l →
  list_to_set (C:=gset Document) (segment a b l) ≠ ∅ ↔ a < b.
Proof.
  intros Hab. pose proof (length_segment l a b Hab) as Hlen. split.
  - intros Hne. destruct (decide (a < b)) as [|Hn]; [done|].
    destruct Hne. assert (segment a b l = []) as ->; [|done].
    apply nil_length_inv. lia.
  - intros Hlt Hempty. destruct (segment a b l) as [|x l'] eqn:Hseg.
    + simpl in Hlen. lia.
    + assert (x ∈ (∅ : gset Document)) as Hx; [|by apply elem_of_empty in Hx].
      rewrite <- Hempty. apply elem_of_list_to_set. by left.
Qed.

(** Below these counts a split stays empty. *)
Lemma split_docs_empty_below docs :
  (length docs < 1 → train_docs (split_docs docs) = ∅) ∧
  (length docs < 2 → dev_docs (split_docs docs) = ∅) ∧
  (length docs < 4 → test_docs (split_docs docs) = ∅).
Proof.
  destruct (split_docs_segments docs) as (-> & -> & ->).
  pose proof (ceil_half_bounds (length docs)).
  pose proof (ceil_three_quarters_bounds (length docs)).
  repeat split; intros HL;
    match goal with
    | |- list_to_set (segment ?a ?b ?l) = ∅ =>
        assert (segment a b l = []) as ->; [|done];
        apply nil_length_inv; unfold segment;
        rewrite length_drop, length_take; lia
    end.
Qed.

(** X2: small corpora leave splits empty: train has a document as soon as
    there is one, dev needs two documents and test needs four. *)
Theorem split_non_empty_iff docs :
  (train_docs (split_docs docs) ≠ ∅ ↔ 1 ≤ length docs) ∧
  (dev_docs (split_docs docs) ≠ ∅ ↔ 2 ≤ length docs) ∧
  (test_docs (split_docs docs) ≠ ∅ ↔ 4 ≤ length docs).
Proof.
  destruct (split_docs_segments docs) as (-> & -> & ->).
  ceil_bounds (length docs).
  pose proof (ceil_half_bounds (length docs)).
  pose proof (ceil_three_quarters_bounds (length docs)).
  rewrite !segment_set_non_empty by (rewrite sorted_docs_length; lia).
  lia.
Qed.

(** X3: for distinct document rows no split is larger than the one before
    it, test is not larger than dev and dev not larger than train, and the
    three sizes add up to the number of documents. *)
Theorem split_sizes_decrease docs :
  NoDup docs →
  size (test_docs (split_docs docs)) ≤ size (dev_docs (split_docs docs)) ∧
  size (dev_docs (split_docs docs)) ≤ size (train_docs (split_docs docs)) ∧
  size (train_docs (split_docs docs)) + size (dev_docs (split_docs docs))
    + size (test_docs (split_docs docs)) = length docs.
Proof.
  intros Hnd. destruct (split_docs_sizes docs Hnd) as (-> & -> & ->).
  ceil_bounds (length docs).
  pose proof (ceil_half_bounds (length docs)).
  pose proof (ceil_three_quarters_bounds (length docs)).
  lia.
Qed.

Lemma split_sizes_decrease_witness :
  NoDup corpus ∧
  size (test_docs (split_docs corpus)) ≤ size (dev_docs (split_docs corpus)).
Proof.
  assert (NoDup corpus) as Hnd by compute_done.
  split; [exact Hnd|].
  exact (proj1 (split_sizes_decrease corpus Hnd)).
Defined.

Lemma split_docs_order_independent_witness :
  corpus ≡ₚ ordered_corpus ∧ NoDup (name <$> corpus) ∧
  split_docs corpus = split_docs ordered_corpus.
Proof.
  assert (corpus ≡ₚ ordered_corpus) as Hp by compute_done.
  assert (NoDup (name <$> corpus)) as Hnd by compute_done.
  split; [exact Hp|]. split; [exact Hnd|].
  exact (split_docs_order_independent corpus ordered_corpus Hp Hnd).
Defined.

(** ** A query that is already in order *)

Lemma insert_by_key_first x l :
  HdRel key_le x l → insert_by_key x l = x :: l.
Proof.
  destruct 1 as [|y l Hxy]; simpl; [done|].
  unfold key_le, String.le in Hxy. by destruct (String.leb x.1 y.1).
Qed.

(** X4: when the query returns the documents in ascending order of their
    names, as its ORDER BY asks, the sort of the cell changes nothing: the
    list the loop enumerates is the query result, row by row. *)
Theorem sorted_query_order_kept docs :
  Sorted (λ d1 d2, String.le (name d1) (name d2)) docs →
  data docs = (λ doc, (name doc, doc)) <$> docs.
Proof.
  unfold data. induction 1 as [|d docs Hs IH Hd]; [done|].
  rewrite fmap_cons. cbn [sort_by_key]. rewrite IH.
  apply insert_by_key_first.
  destruct Hd; [constructor|]. rewrite fmap_cons. by constructor.
Qed.

Lemma sorted_query_order_kept_witness :
  Sorted (λ d1 d2, String.le (name d1) (name d2)) ordered_corpus ∧
  data ordered_corpus = (λ doc, (name doc, doc)) <$> ordered_corpus.
Proof.
  assert (Sorted (λ d1 d2, String.le (name d1) (name d2)) ordered_corpus)
    as Hs by (repeat constructor).
  split; [exact Hs|].
  exact (sorted_query_order_kept ordered_corpus Hs).
Defined.

(** ** The names the cell prints *)

(** X6: for distinct document rows the names printed at the end of the cell
    are, in some order, the first ceil(L/2) names of the ascending list. *)
Theorem printed_train_names_first_half docs :
  NoDup docs →
  printed_train_names docs
    ≡ₚ take (ceil_frac (1 # 2) (length docs)) (data docs).*1.
Proof.
  intros Hnd. unfold printed_train_names.
  assert (NoDup (sorted_docs docs)) as Hs by (by rewrite sorted_docs_perm).
  destruct (split_docs_segments docs) as (-> & _ & _).
  rewrite elements_list_to_set by (by apply NoDup_segment).
  unfold segment. by rewrite drop_0, fmap_take, sorted_docs_names.
Qed.

Lemma printed_train_names_first_half_witness :
  NoDup corpus ∧ printed_train_names corpus ≡ₚ ["a"; "b"].
Proof.
  assert (NoDup corpus) as Hnd by compute_done.
  split; [exact Hnd|].
  exact (printed_train_names_first_half corpus Hnd).
Defined.

(** * The calls on the candidate table *)

Lemma with_split_nil k table :
  (∀ c, c ∈ table → split c ≠ k) → with_split k table = [].
Proof.
  unfold with_split. induction table as [|c table IH]; intros Hk; [done|].
  rewrite filter_cons_False by (apply Hk; left).
  apply IH. intros c' Hc'. apply Hk. by right.
Qed.

(** The extractor modelled above adds only rows of the documents and the
    split it is called with. *)
Lemma modelled_apply_adds figs docs k p table c :
  c ∈ modelled_apply figs docs k p table →
  c ∈ table ∨ (cand_doc c ∈ docs ∧ split c = k).
Proof.
  unfold modelled_apply. rewrite apply_upserts, elem_of_upsert_all.
  intros [?|Hc]; [by left|right].
  apply list_elem_of_bind in Hc as (doc & Hc & Hdoc).
  apply elem_of_elements in Hdoc.
  by apply elem_of_candidates_of in Hc as (<- & ? & _).
Qed.

Lemma figure_corpus_extracted :
  dev_candidate ∈ extracted_table (modelled_apply figures) figure_corpus [].
Proof. compute_done. Qed.

Lemma figure_corpus_extracted_2 :
  dev_candidate_2 ∈ extracted_table (modelled_apply figures) figure_corpus [].
Proof. compute_done. Qed.

Lemma figure_corpus_NoDup : NoDup figure_corpus.
Proof. compute_done. Qed.

Section calls.
Variable extractor_apply :
  gset Document → nat → option nat → list Candidate → list Candidate.

(** What the cells rely on: a call adds only candidates of the documents it
    is given, labelled with the split it is given. *)
Hypothesis apply_adds : ∀ docs k p table c,
  c ∈ extractor_apply docs k p table →
  c ∈ table ∨ (cand_doc c ∈ docs ∧ split c = k).

Lemma cell26_unfold s table :
  cell26 extractor_apply s table =
  let t1 := extractor_apply (dev_docs s) 1 None table in
  let t2 := extractor_apply (test_docs s) 2 None t1 in
  (t2, [length (with_split 1 t1); length (with_split 2 t2)]).
Proof. reflexivity. Qed.

Lemma extracted_table_origin docs table c :
  c ∈ extracted_table extractor_apply docs table →
  c ∈ table ∨
  (split c = 0 ∧ cand_doc c ∈ train_docs (split_docs docs)) ∨
  (split c = 1 ∧ cand_doc c ∈ dev_docs (split_docs docs)) ∨
  (split c = 2 ∧ cand_doc c ∈ test_docs (split_docs docs)).
Proof.
  unfold extracted_table. rewrite cell26_unfold. cbn zeta. unfold cell22. simpl.
  intros [Hc|[? ?]]%apply_adds; [|tauto].
  apply apply_adds in Hc as [Hc|[? ?]]; [|tauto].
  apply apply_adds in Hc as [Hc|[? ?]]; tauto.
Qed.

(** X7: after cells 22 and 26 every candidate that was not in the table
    before carries the label of the split of its document: 0 with a train
    document, 1 with a dev document, 2 with a test document. *)
Theorem candidate_labels_follow_splits docs table c :
  c ∈ extracted_table extractor_apply docs table →
  c ∉ table →
  (split c = 0 ∧ cand_doc c ∈ train_docs (split_docs docs)) ∨
  (split c = 1 ∧ cand_doc c ∈ dev_docs (split_docs docs)) ∨
  (split c = 2 ∧ cand_doc c ∈ test_docs (split_docs docs)).
Proof.
  unfold extracted_table. rewrite cell26_unfold. cbn zeta. unfold cell22. simpl.
  intros Hc Hn.
  apply apply_adds in Hc as [Hc|[? ?]]; [|tauto].
  apply apply_adds in Hc as [Hc|[? ?]]; [|tauto].
  apply apply_adds in Hc as [Hc|[? ?]]; tauto.
Qed.

(** X8: for distinct document rows no document gets candidates in two
    splits: two candidates of one document added by cells 22 and 26 carry
    the same label. *)
Theorem no_document_in_two_splits docs table c1 c2 :
  NoDup docs →
  c1 ∈ extracted_table extractor_apply docs table → c1 ∉ table →
  c2 ∈ extracted_table extractor_apply docs table → c2 ∉ table →
  cand_doc c1 = cand_doc c2 →
  split c1 = split c2.
Proof.
  intros Hnd H1 Hn1 H2 Hn2 Hdoc.
  destruct (split_docs_disjoint docs Hnd) as (Htd & Htt & Hdt).
  apply extracted_table_origin in H1, H2. rewrite Hdoc in H1.
  specialize (Htd (cand_doc c2)). specialize (Htt (cand_doc c2)).
  specialize (Hdt (cand_doc c2)).
  destruct H1 as [?|[[-> ?]|[[-> ?]|[-> ?]]]]; [done|..];
    destruct H2 as [?|[[-> ?]|[[-> ?]|[-> ?]]]]; tauto.
Qed.

(** X9: started on an empty table, the counts cell 26 prints are 0 for dev
    when there are fewer than two documents and 0 for test when there are
    fewer than four; with no document at all cell 24 finds no train
    candidate. *)
Theorem small_corpus_counts docs :
  ∃ n_dev n_test,
    (cell26 extractor_apply (split_docs docs)
       (cell22 extractor_apply (split_docs docs) [])).2 = [n_dev; n_test] ∧
    (length docs < 2 → n_dev = 0) ∧
    (length docs < 4 → n_test = 0) ∧
    (length docs = 0 →
       train_cands (cell22 extractor_apply (split_docs docs) []) = []).
Proof.
  rewrite cell26_unfold. cbn zeta. unfold cell22.
  eexists _, _. split; [reflexivity|].
  destruct (split_docs_empty_below docs) as (Htr & Hdev & Hte).
  repeat split.
  - intros HL. rewrite (Hdev HL).
    rewrite with_split_nil; [done|]. intros c Hc.
    apply apply_adds in Hc as [Hc|[Hc _]]; [|by apply elem_of_empty in Hc].
    apply apply_adds in Hc as [Hc|[_ ->]]; [by apply elem_of_nil in Hc|done].
  - intros HL. rewrite (Hte HL).
    rewrite with_split_nil; [done|]. intros c Hc.
    apply apply_adds in Hc as [Hc|[Hc _]]; [|by apply elem_of_empty in Hc].
    apply apply_adds in Hc as [Hc|[_ ->]]; [|done].
    apply apply_adds in Hc as [Hc|[_ ->]]; [by apply elem_of_nil in Hc|done].
  - intros HL. rewrite Htr by lia.
    unfold train_cands. rewrite with_split_nil; [done|]. intros c Hc.
    apply apply_adds in Hc as [Hc|[Hc _]]; [by apply elem_of_nil in Hc|].
    by apply elem_of_empty in Hc.
Qed.

End calls.

Lemma candidate_labels_follow_splits_witness :
  dev_candidate ∈ extracted_table (modelled_apply figures) figure_corpus [] ∧
  (dev_candidate ∉ []) ∧
  ((split dev_candidate = 0 ∧
    cand_doc dev_candidate ∈ train_docs (split_docs figure_corpus)) ∨
   (split dev_candidate = 1 ∧
    cand_doc dev_candidate ∈ dev_docs (split_docs figure_corpus)) ∨
   (split dev_candidate = 2 ∧
    cand_doc dev_candidate ∈ test_docs (split_docs figure_corpus))).
Proof.
  split; [exact figure_corpus_extracted|].
  split; [apply not_elem_of_nil|].
  exact (candidate_labels_follow_splits (modelled_apply figures)
           (modelled_apply_adds figures) figure_corpus [] dev_candidate
           figure_corpus_extracted (not_elem_of_nil _)).
Defined.

Lemma no_document_in_two_splits_witness :
  NoDup figure_corpus ∧
  dev_candidate ∈ extracted_table (modelled_apply figures) figure_corpus [] ∧
  dev_candidate_2 ∈ extracted_table (modelled_apply figures) figure_corpus [] ∧
  cand_doc dev_candidate = cand_doc dev_candidate_2 ∧
  split dev_candidate = split dev_candidate_2.
Proof.
  split; [exact figure_corpus_NoDup|].
  split; [exact figure_corpus_extracted|].
  split; [exact figure_corpus_extracted_2|].
  split; [reflexivity|].
  exact (no_document_in_two_splits (modelled_apply figures)
           (modelled_apply_adds figures) figure_corpus []
           dev_candidate dev_candidate_2 figure_corpus_NoDup
           figure_corpus_extracted (not_elem_of_nil _)
           figure_corpus_extracted_2 (not_elem_of_nil _) eq_refl).
Defined.

Lemma small_corpus_counts_witness :
  ∃ n_dev n_test,
    (cell26 (modelled_apply figures) (split_docs figure_corpus)
       (cell22 (modelled_apply figures) (split_docs figure_corpus) [])).2
      = [n_dev; n_test] ∧
    (length figure_corpus < 2 → n_dev = 0) ∧
    (length figure_corpus < 4 → n_test = 0) ∧
    (length figure_corpus = 0 →
       train_cands (cell22 (modelled_apply figures)
                      (split_docs figure_corpus) []) = []).
Proof.
  exact (small_corpus_counts (modelled_apply figures)
           (modelled_apply_adds figures) figure_corpus).
Defined.

(** * Cell 27 *)

(** X10: the image of cell 27 needs ten train candidates: with fewer the
    index is out of range, and with ten or more the path shown is
    data/html// followed by the URL of the figure of the tenth one. *)
Theorem image_path_needs_ten_candidates cands :
  Forall (λ c, length (args c) = 1) cands →
  (cell27.image_path cands = None ↔ length cands < 10) ∧
  (∀ c, cands !! 9 = Some c →
     ∃ fig, args c = [fig] ∧
            cell27.image_path cands = Some ("data/html//" +:+ url fig)).
Proof.
  intros Hunary. unfold cell27.image_path, cell27.n. split.
  - destruct (cands !! 9) as [c|] eqn:Hc; simpl.
    + apply lookup_lt_Some in Hc as Hlt.
      rewrite Forall_forall in Hunary.
      pose proof (Hunary c (list_elem_of_lookup_2 _ _ _ Hc)) as Hlen.
      destruct (args c) as [|fig [|]]; simplify_eq/=. split; [done|lia].
    + apply lookup_ge_None in Hc. split; [lia|done].
  - intros c Hc. rewrite Hc. simpl.
    rewrite Forall_forall in Hunary.
    pose proof (Hunary c (list_elem_of_lookup_2 _ _ _ Hc)) as Hlen.
    destruct (args c) as [|fig [|]]; simplify_eq/=. by exists fig.
Qed.

Lemma image_path_needs_ten_candidates_witness :
  Forall (λ c, length (args c) = 1) (replicate 10 train_candidate) ∧
  cell27.image_path (replicate 10 train_candidate)
    = Some "data/html//lmp2014mt/Image_052.jpg".
Proof.
  assert (Forall (λ c, length (args c) = 1) (replicate 10 train_candidate))
    as Hunary by (repeat constructor).
  split; [exact Hunary|].
  destruct (proj2 (image_path_needs_ten_candidates
                     (replicate 10 train_candidate) Hunary)
              train_candidate eq_refl) as (fig & Hfig & Hpath).
  injection Hfig as <-. exact Hpath.
Defined.
